(** * socket_chat: the hub, the client pumps and the handshake

    A shallow embedding of [socket_chat/internal/server]:
    - [hub.go]    : [Hub.Run], the serialized event loop owning the client set;
    - [client.go] : [newClient], [readPump], [writePump] and the timing constants;
    - [server.go] : [Server.handleConnection], the nickname handshake.

    Go values are modelled as follows.  A [*Client] is an address into a heap
    of client objects; a [chan []byte] is its buffer, its capacity and its
    closed flag; a [[]byte] is a [list byte]; a Go [string] is a [string]; a
    [time.Duration] is a [Z] counting nanoseconds.  A run-time panic is an
    explicit outcome of every operation that can raise one. *)

From stdpp Require Import gmap strings list.
From Stdlib Require Import ZArith Strings.Byte.
From Equations Require Import Equations.

Local Open Scope Z_scope.
#[local] Set Warnings "-clear-no-such-hyp".

(** ** Go run-time outcomes *)

Inductive panic : Set :=
| SendOnClosed      (* send on closed channel *)
| CloseOfClosed     (* close of closed channel *)
| NilDeref          (* invalid memory address or nil pointer dereference *)
| SliceBounds.      (* slice bounds out of range *)

Inductive result (A : Type) : Type :=
| Ok (a : A)
| Panic (p : panic).
Arguments Ok {A} a.
Arguments Panic {A} p.

(** Sequencing: a panic ends the goroutine, and with it the program. *)
#[global] Instance result_bind : MBind result := λ A B k r,
  match r with
  | Ok a => k a
  | Panic p => Panic p
  end.

#[global] Instance panic_eq_dec : EqDecision panic.
Proof. solve_decision. Defined.

#[global] Instance byte_eq_dec : EqDecision byte := Byte.byte_eq_dec.

(** ** Buffered channels of [[]byte] *)

Abbreviation message := (list byte).

Record chan : Type := MkChan {
  buf : list message;   (* queued, oldest first *)
  cap : nat;            (* capacity given to make *)
  closed : bool
}.

(** [make(chan []byte, n)] *)
Definition make_chan (n : nat) : chan :=
  {| buf := []; cap := n; closed := false |}.

Definition full (ch : chan) : bool := bool_decide (cap ch ≤ length (buf ch))%nat.

(** The three ways [select { case ch <- m: ... default: ... }] can go. *)
Inductive try_send_result : Type :=
| Sent (ch' : chan)     (* the send case was ready and ran *)
| WouldBlock            (* buffer full: the default case runs *)
| SendPanics.           (* channel closed: the send case is ready and panics *)

Definition try_send (ch : chan) (m : message) : try_send_result :=
  if closed ch then SendPanics
  else if full ch then WouldBlock
  else Sent {| buf := buf ch ++ [m]; cap := cap ch; closed := closed ch |}.

(** [close(ch)] *)
Definition close (ch : chan) : result chan :=
  if closed ch then Panic CloseOfClosed
  else Ok {| buf := buf ch; cap := cap ch; closed := true |}.

(** ** client.go: constants and the Client object *)

(** [time.Second], in nanoseconds. *)
Definition Second : Z := 1000000000.

Definition writeWait : Z := 10 * Second.
Definition pongWait : Z := 60 * Second.
Definition pingPeriod : Z := (pongWait * 9) / 10.
Definition maxMessageSize : Z := 1024.

(** The fields of [Client] the hub and the pumps use; [hub] and [conn] are
    the environment of the functions below. *)
Record Client : Type := MkClient {
  nickname : string;
  send : chan
}.

Definition newClient (nick : string) : Client :=
  {| nickname := nick; send := make_chan 256 |}.

Definition with_send (cl : Client) (ch : chan) : Client :=
  {| nickname := nickname cl; send := ch |}.

(** ** hub.go *)

(** A [*Client]. *)
Abbreviation ptr := positive.

(** The hub's [clients] map (its values are always [true], so it is the set
    of its keys) and the client objects its keys point to. *)
Record state : Type := MkState {
  clients : gset ptr;
  heap : gmap ptr Client
}.

(** [NewHub()], over a given heap. *)
Definition NewHub (h : gmap ptr Client) : state :=
  {| clients := ∅; heap := h |}.

(** [case client := <-h.register] *)
Definition register (c : ptr) (st : state) : result state :=
  match heap st !! c with
  | None => Panic NilDeref   (* client.nickname in the log call *)
  | Some _ => Ok {| clients := {[c]} ∪ clients st; heap := heap st |}
  end.

(** [case client := <-h.unregister] *)
Definition unregister (c : ptr) (st : state) : result state :=
  if decide (c ∈ clients st) then
    match heap st !! c with
    | None => Panic NilDeref
    | Some cl =>
        ch' ← close (send cl) ;
        Ok {| clients := clients st ∖ {[c]};
              heap := <[c := with_send cl ch']> (heap st) |}
    end
  else Ok st.

(** The body of [for client := range h.clients] for one client. *)
Definition deliver (m : message) (c : ptr) (st : state) : result state :=
  match heap st !! c with
  | None => Panic NilDeref
  | Some cl =>
      match try_send (send cl) m with
      | Sent ch' =>
          Ok {| clients := clients st; heap := <[c := with_send cl ch']> (heap st) |}
      | WouldBlock =>
          ch' ← close (send cl) ;
          Ok {| clients := clients st ∖ {[c]};
                heap := <[c := with_send cl ch']> (heap st) |}
      | SendPanics => Panic SendOnClosed
      end
  end.

(** The range loop, for the order in which the map yields its keys.  Only the
    key being visited is ever deleted, so every key present when the loop
    starts is visited once. *)
Fixpoint broadcast_over (order : list ptr) (m : message) (st : state) : result state :=
  match order with
  | [] => Ok st
  | c :: rest => st' ← deliver m c st ; broadcast_over rest m st'
  end.

(** [case message := <-h.broadcast].  The order of [elements] stands for the
    order the map yields its keys in: as long as every registered client's
    queue is open, the result is the same for any order
    ([broadcast_any_order]). *)
Definition broadcast (m : message) (st : state) : result state :=
  broadcast_over (elements (clients st)) m st.

(** What arrives on the hub's three channels. *)
Inductive event : Type :=
| Register (c : ptr)
| Unregister (c : ptr)
| Broadcast (m : message).

#[global] Instance event_eq_dec : EqDecision event.
Proof. solve_decision. Defined.

(** One iteration of the [for { select { ... } }] loop. *)
Definition hub_step (e : event) (st : state) : result state :=
  match e with
  | Register c => register c st
  | Unregister c => unregister c st
  | Broadcast m => broadcast m st
  end.

(** [Hub.Run] over the events received so far, in receipt order. *)
Fixpoint Run (evs : list event) (st : state) : result state :=
  match evs with
  | [] => Ok st
  | e :: rest => st' ← hub_step e st ; Run rest st'
  end.

(** *** Observations on a state *)

Definition chan_of (st : state) (c : ptr) : option chan := send <$> heap st !! c.

(** The queue of [c] exists and has not been closed. *)
Definition is_open (st : state) (c : ptr) : bool :=
  match chan_of st c with
  | Some ch => negb (closed ch)
  | None => false
  end.

Definition is_closed (st : state) (c : ptr) : bool :=
  match chan_of st c with
  | Some ch => closed ch
  | None => false
  end.

Definition is_full (st : state) (c : ptr) : bool :=
  match chan_of st c with
  | Some ch => full ch
  | None => false
  end.

Definition queue (st : state) (c : ptr) : list message :=
  match chan_of st c with
  | Some ch => buf ch
  | None => []
  end.

(** Every registered client has a queue that has not been closed. *)
Definition hub_inv (st : state) : Prop :=
  set_Forall (λ c, is_open st c = true) (clients st).

#[global] Instance hub_inv_dec st : Decision (hub_inv st).
Proof. unfold hub_inv. apply _. Defined.

(** The caller contract of [register]: the events of [evs] are processed
    from [st] and each [Register c] finds the queue of [c] not closed. *)
Fixpoint admissible (evs : list event) (st : state) : bool :=
  match evs with
  | [] => true
  | e :: rest =>
      match e with
      | Register c => is_open st c
      | _ => true
      end
      && match hub_step e st with
         | Ok st' => admissible rest st'
         | Panic _ => true
         end
  end.

(** ** bufio and string primitives used by the pumps and the handshake *)

(** ['\n'] *)
Definition newline : byte := x0a.

(** [bufio.Reader.ReadBytes(delim)] on the bytes the connection still yields
    before its next read error (end of stream, deadline, reset): the data up
    to and including the first [delim] together with what is left to read,
    or, when no [delim] comes, the data read before the error and [None]
    (the call returns [err != nil]). *)
Fixpoint ReadBytes (delim : byte) (input : list byte) : list byte * option (list byte) :=
  match input with
  | [] => ([], None)
  | b :: rest =>
      if decide (b = delim) then ([b], Some rest)
      else let '(line, more) := ReadBytes delim rest in (b :: line, more)
  end.

(** [bufio.Reader.ReadString(delim)]: [ReadBytes], as a string. *)
Definition ReadString (delim : byte) (input : list byte) : string * option (list byte) :=
  let '(line, more) := ReadBytes delim input in (String.string_of_list_byte line, more).

(** [len(s)] *)
Definition len (s : string) : Z := Z.of_nat (String.length s).

(** [s[:hi]] *)
Definition slice_to (s : string) (hi : Z) : result string :=
  if decide (0 ≤ hi ≤ len s) then Ok (String.substring 0 (Z.to_nat hi) s)
  else Panic SliceBounds.

(** The string ["\n"]. *)
Definition LF : string := String (Ascii.ascii_of_byte newline) EmptyString.

(** ** client.go: readPump *)

(** [[]byte(fmt.Sprintf("[%s]: %s", c.nickname, line))] *)
Definition format_message (nick : string) (line : list byte) : message :=
  String.list_byte_of_string ("[" +:+ nick +:+ "]: " +:+ String.string_of_list_byte line).

(** A value together with the equation that it is the value of the term. *)
Definition inspect {A : Type} (a : A) : {b : A | a = b} := exist _ a eq_refl.

(** What [readPump] of client [c] sends to the hub, in order, when [input]
    is what its reader gets from the connection before the read that fails:
    one broadcast per line read, then, from the deferred function, the
    unregistration.  [maxMessageSize] does not occur in it. *)
Equations? readPump (c : ptr) (nick : string) (input : list byte) : list event
  by wf (length input) lt :=
  readPump c nick input with inspect (ReadBytes newline input) => {
    | exist _ (line, Some more) _ =>
        Broadcast (format_message nick line) :: readPump c nick more;
    | exist _ (_, None) _ => [Unregister c] }.
Proof.
  clear readPump.
  revert line more e. induction input as [|b input IH]; intros line more; simpl.
  - discriminate.
  - destruct (decide (b = newline)).
    + intros [= _ <-]. lia.
    + destruct (ReadBytes newline input) as [l r] eqn:E.
      intros [= _ ->]. specialize (IH _ _ eq_refl). lia.
Qed.

(** ** client.go: writePump *)

(** What one round of the [select] in [writePump] can find. *)
Inductive pump_input : Type :=
| FromSend (m : message) (write_ok : bool)  (* a message was received from c.send *)
| SendClosed                                (* c.send is closed and drained *)
| Tick (write_ok : bool).                   (* the ping ticker fired *)

(** The byte sequences [writePump] hands to [conn.Write], in order. *)
Fixpoint writePump (rounds : list pump_input) : list (list byte) :=
  match rounds with
  | [] => []
  | FromSend m write_ok :: rest => m :: (if write_ok then writePump rest else [])
  | SendClosed :: _ => [String.list_byte_of_string ("Server is closing the connection." +:+ LF)]
  | Tick write_ok :: rest => [newline] :: (if write_ok then writePump rest else [])
  end.

(** ** server.go: handleConnection *)

(** [fmt.Sprintf("%s has joined the chat.\n", nickname)] *)
Definition joinMsg (nick : string) : string := nick +:+ " has joined the chat." +:+ LF.

(** How [handleConnection] ends. *)
Inductive handshake : Type :=
| Abandoned   (* conn.Close() and return: nothing was sent to the hub *)
| Accepted (c : ptr) (h' : gmap ptr Client) (evs : list event).
              (* the new client, the heap holding it, what was sent to the hub *)

(** [handleConnection]: [prompt_ok] tells whether writing the prompt
    succeeded, [input] is what the connection yields to the nickname read,
    [h] is the heap the new client is allocated in. *)
Definition handleConnection (prompt_ok : bool) (input : list byte)
    (h : gmap ptr Client) : result handshake :=
  if negb prompt_ok then Ok Abandoned
  else
    match ReadString newline input with
    | (_, None) => Ok Abandoned
    | (nickname, Some _) =>
        nickname ← slice_to nickname (len nickname - 1) ;
        let c := fresh (dom h) in
        Ok (Accepted c (<[c := newClient nickname]> h)
              [Register c; Broadcast (String.list_byte_of_string (joinMsg nickname))])
    end.

(** The nickname [handleConnection] gives the client, when it accepts. *)
Definition handshake_nickname (input : list byte) : option string :=
  match handleConnection true input ∅ with
  | Ok (Accepted c h' _) => nickname <$> h' !! c
  | _ => None
  end.

(** What the loop body of the broadcast leaves in the heap for a client whose
    queue was open: the message appended, or the queue closed when full. *)
Definition after_deliver (m : message) (cl : Client) : Client :=
  if full (send cl)
  then with_send cl {| buf := buf (send cl); cap := cap (send cl); closed := true |}
  else with_send cl {| buf := buf (send cl) ++ [m]; cap := cap (send cl);
                       closed := closed (send cl) |}.

(** The clients that [evs] registers, in order. *)
Fixpoint registered (evs : list event) : list ptr :=
  match evs with
  | [] => []
  | Register c :: rest => c :: registered rest
  | _ :: rest => registered rest
  end.

(** ** The display name as the protocol describes it *)

(** Tab, newline, vertical tab, form feed, carriage return, space. *)
Definition is_space (b : byte) : bool :=
  bool_decide (b ∈ [x09; x0a; x0b; x0c; x0d; x20]).

(** [l] without the whitespace at its end. *)
Fixpoint trim_right (l : list byte) : list byte :=
  match l with
  | [] => []
  | b :: l' =>
      match trim_right l' with
      | [] => if is_space b then [] else [b]
      | t => b :: t
      end
  end.

(** The name in the words of the protocol, and of the comment on the slice
    in [handleConnection]: the first line with its trailing newline and
    whitespace trimmed.  It is not what [handleConnection] computes. *)
Definition trim_trailing_whitespace (line : list byte) : string :=
  String.string_of_list_byte (trim_right line).

(** ** Scenarios *)

(** A connection whose handshake events the hub processes before anything
    else happens: the client is allocated in the current heap. *)
Definition connect (input : list byte) (st : state) : result state :=
  r ← handleConnection true input (heap st) ;
  match r with
  | Abandoned => Ok st
  | Accepted c h' evs => Run evs {| clients := clients st; heap := h' |}
  end.

Definition bytes (s : string) : list byte := String.list_byte_of_string s.

(** Ann and Bo connect, in this order, and Ann says hi. *)
Definition ann_bo_hi : result state :=
  st ← connect (bytes "Ann" ++ [newline]) (NewHub ∅) ;
  st ← connect (bytes "Bo" ++ [newline]) st ;
  Run [Broadcast (format_message "Ann" (bytes "hi" ++ [newline]))] st.

(** Ann's queue holds 256 undrained messages, Bo's is empty. *)
Definition hub_256_full : state :=
  {| clients := {[1%positive; 2%positive]};
     heap := {[ 1%positive := {| nickname := "Ann";
                                 send := {| buf := replicate 256 [newline];
                                            cap := 256; closed := false |} |};
                2%positive := newClient "Bo" ]} |}.

(** [hub_256_full] after one more broadcast: Ann is out, her queue closed. *)
Definition hub_after_eviction : state :=
  {| clients := {[2%positive]};
     heap := {[ 1%positive := {| nickname := "Ann";
                                 send := {| buf := replicate 256 [newline];
                                            cap := 256; closed := true |} |};
                2%positive := {| nickname := "Bo";
                                 send := {| buf := [[newline]];
                                            cap := 256; closed := false |} |} ]} |}.

(** ** cmd/client/main.go: closeDone *)

(** The [done] channel of the client and the [sync.Once] that guards its
    closing.  [done] carries no value: only its closed flag matters. *)
Record closer : Type := MkCloser {
  once_done : bool;   (* the Once has run its function *)
  done : chan
}.

(** [done := make(chan struct{})] and [var once sync.Once]. *)
Definition new_closer : closer := {| once_done := false; done := make_chan 0 |}.

(** [closeDone()], that is [once.Do(func() { close(done) })]: the calls of
    the two goroutines are serialized by the Once. *)
Definition closeDone (s : closer) : result closer :=
  if once_done s then Ok s
  else ch ← close (done s) ; Ok {| once_done := true; done := ch |}.

(** [closeDone()] called [n] times. *)
Fixpoint closeDone_times (n : nat) (s : closer) : result closer :=
  match n with
  | O => Ok s
  | S n' => s' ← closeDone s ; closeDone_times n' s'
  end.

(** ** Further observations *)

(** No queue holds more messages than its capacity. *)
Definition within_capacity (st : state) : Prop :=
  map_Forall (λ _ cl, (length (buf (send cl)) ≤ cap (send cl))%nat) (heap st).

#[global] Instance within_capacity_dec st : Decision (within_capacity st).
Proof. unfold within_capacity. apply _. Defined.

(** How a client object may differ after the hub has run: the same
    nickname and capacity, the queue extended at its end and still within
    its capacity if it was, and no difference at all once the queue is
    closed. *)
Definition cell_evolves (cl cl' : Client) : Prop :=
  nickname cl' = nickname cl
  ∧ cap (send cl') = cap (send cl)
  ∧ buf (send cl) `prefix_of` buf (send cl')
  ∧ (closed (send cl) = true → cl' = cl)
  ∧ ((length (buf (send cl)) ≤ cap (send cl))%nat →
     (length (buf (send cl')) ≤ cap (send cl'))%nat).

Definition heap_evolves (h h' : gmap ptr Client) : Prop :=
  ∀ c, match h !! c, h' !! c with
       | Some cl, Some cl' => cell_evolves cl cl'
       | None, None => True
       | _, _ => False
       end.

(** What a round of [writePump] hands to [conn.Write]. *)
Definition written (r : pump_input) : list byte :=
  match r with
  | FromSend m _ => m
  | SendClosed => String.list_byte_of_string ("Server is closing the connection." +:+ LF)
  | Tick _ => [newline]
  end.

(** Whether [writePump] goes round its loop again after a round: not after
    a failed write, and not after the closing notice. *)
Definition goes_on (r : pump_input) : bool :=
  match r with
  | FromSend _ write_ok => write_ok
  | SendClosed => false
  | Tick write_ok => write_ok
  end.

(** * Properties *)

(** Closed goals about concrete states are decided by evaluation. *)
Ltac by_evaluation := apply (bool_decide_unpack _); vm_compute; exact I.

(** ** The hub *)

Section hub_facts.
Implicit Types (st : state) (c : ptr) (m : message) (cl : Client).

Lemma is_open_lookup st c :
  is_open st c = true ↔ ∃ cl, heap st !! c = Some cl ∧ closed (send cl) = false.
Proof.
  unfold is_open, chan_of. destruct (heap st !! c) as [cl|]; simpl.
  - rewrite negb_true_iff. split; [by exists cl | by intros (? & [= <-] & ?)].
  - split; [done | by intros (? & ? & ?)].
Qed.

Lemma is_closed_lookup st c :
  is_closed st c = true ↔ ∃ cl, heap st !! c = Some cl ∧ closed (send cl) = true.
Proof.
  unfold is_closed, chan_of. destruct (heap st !! c) as [cl|]; simpl.
  - split; [by exists cl | by intros (? & [= <-] & ?)].
  - split; [done | by intros (? & ? & ?)].
Qed.

Lemma is_open_not_closed st c : is_open st c = true → is_closed st c = false.
Proof.
  unfold is_open, is_closed. destruct (chan_of st c) as [ch|]; [|done].
  by destruct (closed ch).
Qed.

(** The observations on a client depend on its heap cell only. *)
Lemma chan_of_heap_eq st st' c :
  heap st' !! c = heap st !! c → chan_of st' c = chan_of st c.
Proof. unfold chan_of. by intros ->. Qed.

Lemma deliver_open m c st cl :
  heap st !! c = Some cl → closed (send cl) = false →
  deliver m c st =
    Ok {| clients := if full (send cl) then clients st ∖ {[c]} else clients st;
          heap := <[c := after_deliver m cl]> (heap st) |}.
Proof.
  intros Hc Hopen. unfold deliver, after_deliver, try_send, close.
  rewrite Hc, Hopen. by destruct (full (send cl)).
Qed.

(** The range loop over clients with open queues, whatever the order:
    it ends, without a panic, and each visited client got the message or
    was evicted. *)
Lemma broadcast_over_spec order m st :
  NoDup order →
  (∀ c, c ∈ order → is_open st c = true) →
  ∃ st', broadcast_over order m st = Ok st'
    ∧ (∀ c, heap st' !! c =
            if decide (c ∈ order) then after_deliver m <$> heap st !! c
            else heap st !! c)
    ∧ (∀ c, c ∈ clients st' ↔ c ∈ clients st ∧ ¬ (c ∈ order ∧ is_full st c = true)).
Proof.
  intros Hnd. revert st.
  induction Hnd as [|c order Hc Hnd IH]; intros st Hopen; simpl.
  - exists st. split; [done|]. split.
    + intros c. destruct (decide (c ∈ [])) as [Hin|]; [by apply elem_of_nil in Hin | done].
    + intros c. split; [|by intros [? _]].
      intros ?. split; [done|]. intros [Hin _]. by apply elem_of_nil in Hin.
  - assert (Ho : is_open st c = true) by (apply Hopen; left).
    apply is_open_lookup in Ho as (cl & Hcl & Hcl_open).
    rewrite (deliver_open _ _ _ _ Hcl Hcl_open). simpl.
    set (st1 := {| clients := _; heap := _ |}).
    destruct (IH st1) as (st' & Hrun & Hheap & Hmem).
    { intros c' Hc'. assert (c ≠ c') by (intros ->; done).
      rewrite <- (Hopen c') by (by right).
      unfold is_open. rewrite (chan_of_heap_eq st st1 c'); [done|].
      subst st1; simpl. by rewrite lookup_insert_ne. }
    exists st'. split; [done|]. split.
    + intros c'. rewrite Hheap. subst st1; simpl.
      destruct (decide (c' = c)) as [->|Hne].
      * rewrite decide_False by done. rewrite decide_True by left.
        by rewrite lookup_insert_eq, Hcl.
      * rewrite lookup_insert_ne by done.
        destruct (decide (c' ∈ order)) as [Hin|Hin].
        -- by rewrite decide_True by (by right).
        -- rewrite decide_False; [done|]. by intros [?|?]%elem_of_cons.
    + intros c'. rewrite Hmem. subst st1; simpl.
      assert (Hfull : ∀ c'', c'' ≠ c → is_full
        {| clients := if full (send cl) then clients st ∖ {[c]} else clients st;
           heap := <[c:=after_deliver m cl]> (heap st) |} c'' = is_full st c'').
      { intros c'' Hne. unfold is_full, chan_of; simpl.
        by rewrite lookup_insert_ne. }
      assert (Hfc : is_full st c = full (send cl)).
      { unfold is_full, chan_of. by rewrite Hcl. }
      destruct (decide (c' = c)) as [->|Hne].
      * rewrite Hfc. destruct (full (send cl)); set_solver.
      * rewrite (Hfull c' Hne).
        destruct (full (send cl)); set_solver.
Qed.

Lemma broadcast_spec m st :
  hub_inv st →
  ∃ st', broadcast m st = Ok st'
    ∧ (∀ c, heap st' !! c =
            if decide (c ∈ clients st) then after_deliver m <$> heap st !! c
            else heap st !! c)
    ∧ (∀ c, c ∈ clients st' ↔ c ∈ clients st ∧ is_full st c = false).
Proof.
  intros Hinv. unfold broadcast.
  destruct (broadcast_over_spec (elements (clients st)) m st)
    as (st' & Hrun & Hheap & Hmem).
  - apply NoDup_elements.
  - intros c Hc%elem_of_elements. by apply Hinv.
  - exists st'. split; [done|]. split.
    + intros c. rewrite Hheap.
      destruct (decide (c ∈ clients st)) as [Hc|Hc].
      * by rewrite decide_True by (by apply elem_of_elements).
      * rewrite decide_False; [done|]. by rewrite elem_of_elements.
    + intros c. rewrite Hmem, elem_of_elements.
      destruct (is_full st c); split; intros [? ?]; try done.
      * exfalso; auto.
      * split; [done|]. by intros [_ ?].
Qed.

(** The broadcast is the same whatever order the map yields its keys in. *)
Lemma broadcast_any_order order m st :
  hub_inv st → NoDup order → (∀ c, c ∈ order ↔ c ∈ clients st) →
  broadcast_over order m st = broadcast m st.
Proof.
  intros Hinv Hnd Hsame.
  destruct (broadcast_spec m st Hinv) as (st2 & -> & Hheap2 & Hmem2).
  destruct (broadcast_over_spec order m st Hnd) as (st1 & -> & Hheap1 & Hmem1).
  { intros c Hc%Hsame. by apply Hinv. }
  f_equal. destruct st1 as [X1 h1], st2 as [X2 h2]; simpl in *. f_equal.
  - apply set_eq. intros c. rewrite Hmem1, Hmem2, Hsame.
    destruct (is_full st c); split; intros [? ?]; try done.
    + exfalso; auto.
    + split; [done|]. by intros [_ ?].
  - apply map_eq. intros c. rewrite Hheap1, Hheap2.
    destruct (decide (c ∈ order)) as [Hc|Hc].
    + by rewrite decide_True by (by apply Hsame).
    + rewrite decide_False; [done|]. by rewrite <- Hsame.
Qed.

Lemma after_deliver_open m cl :
  closed (send cl) = false →
  closed (send (after_deliver m cl)) = full (send cl).
Proof. intros H. unfold after_deliver. by destruct (full (send cl)). Qed.

Lemma register_inv c st :
  hub_inv st → is_open st c = true →
  register c st = Ok {| clients := {[c]} ∪ clients st; heap := heap st |}
  ∧ hub_inv {| clients := {[c]} ∪ clients st; heap := heap st |}.
Proof.
  intros Hinv Ho. split.
  - apply is_open_lookup in Ho as (cl & Hcl & _). unfold register. by rewrite Hcl.
  - intros c' [->%elem_of_singleton|Hc']%elem_of_union; [done|]. by apply Hinv.
Qed.

Lemma unregister_absent c st : c ∉ clients st → unregister c st = Ok st.
Proof. intros Hc. unfold unregister. by rewrite decide_False. Qed.

Lemma unregister_member c st :
  hub_inv st → c ∈ clients st →
  ∃ cl, heap st !! c = Some cl ∧ closed (send cl) = false ∧
    unregister c st =
      Ok {| clients := clients st ∖ {[c]};
            heap := <[c := with_send cl {| buf := buf (send cl); cap := cap (send cl);
                                          closed := true |}]> (heap st) |}.
Proof.
  intros Hinv Hc. destruct (proj1 (is_open_lookup st c) (Hinv c Hc)) as (cl & Hcl & Ho).
  exists cl. split; [done|]. split; [done|].
  unfold unregister, close. rewrite decide_True by done. by rewrite Hcl, Ho.
Qed.

(** One event, processed in a state where the invariant holds and the
    caller contract of [register] is met: what it does to the set and to
    each heap cell. *)
Lemma hub_step_inv e st :
  hub_inv st → admissible [e] st = true →
  ∃ st', hub_step e st = Ok st' ∧ hub_inv st'
    ∧ (∀ c, is_closed st c = true → heap st' !! c = heap st !! c ∧ c ∉ clients st')
    ∧ (∀ c, is_closed st c = false → is_closed st' c = true →
            c ∈ clients st ∧ c ∉ clients st').
Proof.
  intros Hinv Hadm.
  assert (Hout : ∀ c, is_closed st c = true → c ∉ clients st).
  { intros c Hcl Hc. apply Hinv, is_open_not_closed in Hc. congruence. }
  destruct e as [c|c|m]; simpl in *.
  - apply andb_true_iff in Hadm as [Ho _].
    destruct (register_inv c st Hinv Ho) as [-> Hinv'].
    eexists. split; [done|]. split; [done|]. simpl. split.
    + intros c' Hcl. split; [done|].
      intros [->%elem_of_singleton|Hc']%elem_of_union.
      * apply is_open_not_closed in Ho. congruence.
      * by apply (Hout c').
    + intros c' H1 H2. unfold is_closed, chan_of in *. simpl in *. congruence.
  - destruct (decide (c ∈ clients st)) as [Hc|Hc].
    + destruct (unregister_member c st Hinv Hc) as (cl & Hcl & Ho & ->).
      eexists. split; [done|]. split; [|split]; simpl.
      * intros c' [Hc' Hne%not_elem_of_singleton]%elem_of_difference.
        unfold is_open, chan_of; simpl. rewrite lookup_insert_ne by done.
        by apply Hinv.
      * intros c' Hcl'. assert (c' ≠ c) by (intros ->; by apply (Hout c)).
        rewrite lookup_insert_ne by done. split; [done|].
        intros [Hc' _]%elem_of_difference. by apply (Hout c').
      * intros c' H1 H2. destruct (decide (c' = c)) as [->|Hne].
        -- split; [done|]. set_solver.
        -- unfold is_closed, chan_of in *; simpl in *.
           rewrite lookup_insert_ne in H2 by done. congruence.
    + rewrite (unregister_absent c st Hc). exists st.
      split; [done|]. split; [done|]. split.
      * intros c' Hcl'. split; [done|]. by apply Hout.
      * intros c' H1 H2. congruence.
  - destruct (broadcast_spec m st Hinv) as (st' & -> & Hheap & Hmem).
    exists st'. split; [done|]. split; [|split].
    + intros c [Hc Hfull]%Hmem.
      destruct (proj1 (is_open_lookup st c) (Hinv c Hc)) as (cl & Hcl & Ho).
      apply is_open_lookup. exists (after_deliver m cl). split.
      * rewrite Hheap, decide_True by done. by rewrite Hcl.
      * rewrite after_deliver_open by done.
        unfold is_full, chan_of in Hfull. by rewrite Hcl in Hfull.
    + intros c Hcl. pose proof (Hout c Hcl) as Hc. split.
      * by rewrite Hheap, decide_False.
      * by intros [? _]%Hmem.
    + intros c H1 H2. destruct (decide (c ∈ clients st)) as [Hc|Hc].
      * split; [done|]. intros [_ Hfull]%Hmem.
        destruct (proj1 (is_open_lookup st c) (Hinv c Hc)) as (cl & Hcl & Ho).
        unfold is_closed, is_full, chan_of in *.
        rewrite Hheap, decide_True, Hcl in H2 by done. simpl in H2.
        rewrite after_deliver_open in H2 by done.
        rewrite Hcl in Hfull. simpl in Hfull. congruence.
      * unfold is_closed, chan_of in *.
        rewrite Hheap, decide_False in H2 by done. congruence.
Qed.

End hub_facts.

Section runs.
Implicit Types (st : state) (c : ptr) (m : message) (evs : list event).

Lemma bind_Ok {A B : Type} (a : A) (k : A → result B) : Ok a ≫= k = k a.
Proof. done. Qed.

Lemma Run_app evs1 evs2 st : Run (evs1 ++ evs2) st = Run evs1 st ≫= Run evs2.
Proof.
  revert st. induction evs1 as [|e evs1 IH]; intros st; simpl; [done|].
  destruct (hub_step e st) as [st1|p]; simpl; [apply IH | done].
Qed.

Lemma admissible_cons e evs st :
  admissible (e :: evs) st = true →
  admissible [e] st = true
  ∧ ∀ st', hub_step e st = Ok st' → admissible evs st' = true.
Proof.
  simpl. intros [Hpre Hrest]%andb_true_iff. split.
  - rewrite Hpre. by destruct (hub_step e st).
  - intros st' Hst'. by rewrite Hst' in Hrest.
Qed.

Lemma admissible_app evs1 evs2 st st1 :
  admissible (evs1 ++ evs2) st = true → Run evs1 st = Ok st1 →
  admissible evs2 st1 = true.
Proof.
  revert st. induction evs1 as [|e evs1 IH]; intros st Hadm; simpl.
  - by intros [= <-].
  - apply admissible_cons in Hadm as [_ Hrest].
    destruct (hub_step e st) as [st'|p] eqn:He; simpl; [|done].
    apply IH. by apply Hrest.
Qed.

Lemma admissible_prefix evs1 evs2 st :
  admissible (evs1 ++ evs2) st = true → admissible evs1 st = true.
Proof.
  revert st. induction evs1 as [|e evs1 IH]; intros st; [done|].
  intros [Hone Hrest]%admissible_cons. cbn [admissible] in *.
  apply andb_true_iff in Hone as [-> _]. cbn.
  destruct (hub_step e st) as [st'|] eqn:E; [|done].
  apply IH. by apply Hrest.
Qed.

(** Unregistrations and broadcasts are admissible in any state. *)
Lemma admissible_no_register evs st :
  (∀ c, Register c ∉ evs) → admissible evs st = true.
Proof.
  revert st. induction evs as [|e evs IH]; intros st Hno; simpl; [done|].
  apply andb_true_iff. split.
  - destruct e as [c| |]; [|done..]. exfalso. apply (Hno c). left.
  - destruct (hub_step e st); [|done]. apply IH. intros c Hc. apply (Hno c). by right.
Qed.

(** An admissible run from a state where the invariant holds never panics,
    keeps the invariant, and never touches a queue that is closed. *)
Lemma Run_admissible evs st :
  hub_inv st → admissible evs st = true →
  ∃ st', Run evs st = Ok st' ∧ hub_inv st'
    ∧ ∀ c, is_closed st c = true → heap st' !! c = heap st !! c ∧ c ∉ clients st'.
Proof.
  revert st. induction evs as [|e evs IH]; intros st Hinv Hadm.
  - exists st. split; [done|]. split; [done|]. intros c Hcl. split; [done|].
    intros Hc. apply Hinv, is_open_not_closed in Hc. congruence.
  - apply admissible_cons in Hadm as [He Hrest].
    destruct (hub_step_inv e st Hinv He) as (st1 & Hst1 & Hinv1 & Hkeep & _).
    destruct (IH st1 Hinv1 (Hrest _ Hst1)) as (st' & Hrun & Hinv' & Hkeep').
    exists st'. simpl. rewrite Hst1. split; [done|]. split; [done|].
    intros c Hcl. destruct (Hkeep c Hcl) as [Hh _].
    assert (Hcl1 : is_closed st1 c = true).
    { unfold is_closed. by rewrite (chan_of_heap_eq st st1 c Hh). }
    destruct (Hkeep' c Hcl1) as [Hh' ?]. split; [congruence | done].
Qed.

(** Registrations of clients with open queues only grow the set. *)
Lemma Run_registers cs st :
  hub_inv st → (∀ c, c ∈ cs → is_open st c = true) →
  ∃ st', Run (Register <$> cs) st = Ok st' ∧ hub_inv st' ∧ heap st' = heap st
    ∧ ∀ c, c ∈ clients st' ↔ c ∈ clients st ∨ c ∈ cs.
Proof.
  revert st. induction cs as [|c cs IH]; intros st Hinv Hopen; simpl.
  - exists st. split; [done|]. split; [done|]. split; [done|].
    intros c. split; [by left|]. intros [?|Hc]; [done|]. by apply elem_of_nil in Hc.
  - destruct (register_inv c st Hinv) as [-> Hinv1]; [apply Hopen; left|].
    simpl. destruct (IH _ Hinv1) as (st' & Hrun & Hinv' & Hheap & Hmem).
    { intros c' Hc'. assert (Ho : is_open st c' = true) by (apply Hopen; by right).
      exact Ho. }
    exists st'. split; [exact Hrun|]. split; [done|]. split; [done|].
    intros c'. rewrite Hmem. simpl. rewrite elem_of_union, elem_of_singleton, elem_of_cons.
    tauto.
Qed.

(** An event touches the heap cells of registered clients only, and
    only a registration adds a client to the set. *)
Lemma hub_step_frame e st st' :
  hub_inv st → hub_step e st = Ok st' →
  (∀ c, c ∉ clients st → heap st' !! c = heap st !! c)
  ∧ (∀ c, c ∈ clients st' → c ∈ clients st ∨ e = Register c).
Proof.
  intros Hinv. destruct e as [c|c|m]; cbn [hub_step].
  - unfold register. destruct (heap st !! c); [|done]. intros [= <-]. cbn.
    split; [done|].
    intros c' [->%elem_of_singleton|?]%elem_of_union; [by right | by left].
  - destruct (decide (c ∈ clients st)) as [Hc|Hc].
    + destruct (unregister_member c st Hinv Hc) as (cl & _ & _ & ->).
      intros [= <-]. cbn. split.
      * intros c' Hc'. rewrite lookup_insert_ne; [done|]. by intros ->.
      * intros c' [? _]%elem_of_difference. by left.
    + rewrite (unregister_absent c st Hc). intros [= <-]. split; [done | by left].
  - destruct (broadcast_spec m st Hinv) as (s & -> & Hheap & Hmem).
    intros [= <-]. split.
    + intros c Hc. by rewrite Hheap, decide_False.
    + intros c [? _]%Hmem. by left.
Qed.

(** The contract as the handshake meets it: clients whose queues are open
    and that are each registered once. *)
Lemma registered_once_admissible evs st :
  hub_inv st → NoDup (registered evs) →
  (∀ c, c ∈ registered evs → is_open st c = true ∧ c ∉ clients st) →
  admissible evs st = true.
Proof.
  revert st. induction evs as [|e evs IH]; intros st Hinv Hnd Hreg; [done|].
  assert (Hpre : admissible [e] st = true).
  { cbn [admissible]. destruct e as [c| |]; cbn [registered] in Hreg.
    - destruct (Hreg c) as [-> _]; [left|]. by destruct (hub_step _ st).
    - by destruct (hub_step _ st).
    - by destruct (hub_step _ st). }
  destruct (hub_step_inv e st Hinv Hpre) as (st' & Hst' & Hinv' & _).
  destruct (hub_step_frame e st st' Hinv Hst') as [Hheap Hmem].
  cbn [admissible] in *. rewrite Hst' in *.
  apply andb_true_iff in Hpre as [-> _]. cbn.
  assert (Hrest : ∀ c, c ∈ registered evs → c ∈ registered (e :: evs)).
  { intros c Hc. destruct e; cbn; [by right | done..]. }
  apply IH; [done | |].
  - destruct e; cbn in Hnd; [by apply NoDup_cons in Hnd as [_ ?] | done..].
  - intros c Hc. destruct (Hreg c (Hrest c Hc)) as [Ho Hout]. split.
    + unfold is_open. by rewrite (chan_of_heap_eq st st' c (Hheap c Hout)).
    + intros [?| ->]%Hmem; [done|]. cbn in Hnd.
      by apply NoDup_cons in Hnd as [? _].
Qed.

End runs.

(** C1. A broadcast processed by the hub, in a state where every registered
    client's queue is open, never blocks and never panics: it returns the
    next state.  A registered client whose queue is full is removed from the
    set and its queue is closed, nothing being enqueued, on this very
    attempt; whatever broadcasts follow, it stays out of the set and its
    queue is left as it is.  Every registered client whose queue has room
    stays registered and gets the message at the end of its queue. *)
Theorem broadcast_evicts_slow_consumers (m : message) (st : state) :
  hub_inv st →
  ∃ st', hub_step (Broadcast m) st = Ok st' ∧ hub_inv st' ∧
    ∀ c, c ∈ clients st →
      (is_full st c = true →
         (c ∉ clients st') ∧ is_closed st' c = true ∧ queue st' c = queue st c
         ∧ ∀ ms, ∃ st'', Run (Broadcast <$> ms) st' = Ok st''
                  ∧ (c ∉ clients st'') ∧ heap st'' !! c = heap st' !! c)
      ∧ (is_full st c = false →
         c ∈ clients st' ∧ is_open st' c = true ∧ queue st' c = queue st c ++ [m]).
Proof.
  intros Hinv. cbn [hub_step].
  destruct (broadcast_spec m st Hinv) as (st' & Hrun & Hheap & Hmem).
  assert (Hinv' : hub_inv st').
  { destruct (hub_step_inv (Broadcast m) st Hinv) as (st1 & Hst1 & ? & _).
    - cbn [admissible hub_step]. by rewrite Hrun.
    - cbn [hub_step] in Hst1. rewrite Hrun in Hst1. by injection Hst1 as ->. }
  exists st'. split; [done|]. split; [done|].
  intros c Hc.
  destruct (proj1 (is_open_lookup st c) (Hinv c Hc)) as (cl & Hcl & Ho).
  assert (Hcell : heap st' !! c = Some (after_deliver m cl)).
  { rewrite Hheap, decide_True by done. by rewrite Hcl. }
  assert (Hfc : is_full st c = full (send cl)).
  { unfold is_full, chan_of. by rewrite Hcl. }
  rewrite Hfc. unfold is_closed, is_open, queue, chan_of.
  rewrite Hcell, Hcl. unfold after_deliver. simpl. split; intros Hfull; rewrite Hfull; simpl.
  - assert (Hout : c ∉ clients st').
    { intros [_ Hnf]%Hmem. congruence. }
    split; [done|]. split; [done|]. split; [done|].
    intros ms. destruct (Run_admissible (Broadcast <$> ms) st' Hinv')
      as (st'' & Hrun'' & _ & Hkeep).
    { apply admissible_no_register. intros c' (e & [=] & _)%list_elem_of_fmap. }
    exists st''. split; [done|].
    assert (Hcl' : is_closed st' c = true).
    { unfold is_closed, chan_of. rewrite Hcell. unfold after_deliver. by rewrite Hfull. }
    destruct (Hkeep c Hcl') as [Hsame ?]. split; [done|].
    rewrite Hsame, Hcell. unfold after_deliver. by rewrite Hfull.
  - split; [apply Hmem; split; [done | congruence]|]. by rewrite Ho.
Qed.

Lemma broadcast_evicts_slow_consumers_witness :
  ∃ st', hub_step (Broadcast [newline]) hub_256_full = Ok st' ∧ hub_inv st' ∧
    ∀ c, c ∈ clients hub_256_full →
      (is_full hub_256_full c = true →
         (c ∉ clients st') ∧ is_closed st' c = true ∧ queue st' c = queue hub_256_full c
         ∧ ∀ ms, ∃ st'', Run (Broadcast <$> ms) st' = Ok st''
                  ∧ (c ∉ clients st'') ∧ heap st'' !! c = heap st' !! c)
      ∧ (is_full hub_256_full c = false →
         c ∈ clients st' ∧ is_open st' c = true
         ∧ queue st' c = queue hub_256_full c ++ [[newline]]).
Proof.
  apply (broadcast_evicts_slow_consumers [newline] hub_256_full).
  apply (bool_decide_unpack _). vm_compute. exact I.
Defined.

(** In the state of the witness Ann's queue is full and Bo's is not: the
    broadcast evicts Ann and reaches Bo. *)
Example hub_256_full_broadcast :
  is_full hub_256_full 1%positive = true
  ∧ is_full hub_256_full 2%positive = false
  ∧ hub_step (Broadcast [newline]) hub_256_full
    = Ok {| clients := {[2%positive]};
            heap := {[ 1%positive := {| nickname := "Ann";
                                        send := {| buf := replicate 256 [newline];
                                                   cap := 256; closed := true |} |};
                       2%positive := {| nickname := "Bo";
                                        send := {| buf := [[newline]];
                                                   cap := 256; closed := false |} |} ]} |}.
Proof. repeat split; vm_compute; reflexivity. Qed.

(** The state of the witness is one the hub reaches: Ann registers, 256
    broadcasts go undrained, Bo registers. *)
Example hub_256_full_reached :
  Run (Register 1%positive :: replicate 256 (Broadcast [newline]) ++ [Register 2%positive])
      (NewHub {[ 1%positive := newClient "Ann"; 2%positive := newClient "Bo" ]})
  = Ok hub_256_full.
Proof. vm_compute. reflexivity. Qed.

(** C2. After any number of registrations (of clients whose queues are open)
    followed by one broadcast, with no queue full, the registered set is the
    old one together with the clients registered, and every client in it,
    the originator of the message like any other since the hub knows no
    sender, has the message enqueued exactly once, at the end of its queue. *)
Theorem registrations_then_broadcast (cs : list ptr) (m : message) (st : state) :
  hub_inv st →
  (∀ c, c ∈ cs → is_open st c = true) →
  (∀ c, c ∈ clients st ∨ c ∈ cs → is_full st c = false) →
  ∃ st', Run ((Register <$> cs) ++ [Broadcast m]) st = Ok st'
    ∧ (∀ c, c ∈ clients st' ↔ c ∈ clients st ∨ c ∈ cs)
    ∧ (∀ c, c ∈ clients st' → queue st' c = queue st c ++ [m])
    ∧ (∀ c, c ∉ clients st' → queue st' c = queue st c).
Proof.
  intros Hinv Hopen Hroom.
  destruct (Run_registers cs st Hinv Hopen) as (st1 & Hrun1 & Hinv1 & Hheap1 & Hmem1).
  destruct (broadcast_spec m st1 Hinv1) as (st' & Hrun & Hheap & Hmem).
  assert (Hfull1 : ∀ c, is_full st1 c = is_full st c).
  { intros c. unfold is_full, chan_of. by rewrite Hheap1. }
  assert (Hsame : ∀ c, c ∈ clients st' ↔ c ∈ clients st ∨ c ∈ cs).
  { intros c. rewrite Hmem, Hmem1, Hfull1. split; [by intros [? _]|].
    intros Hc. split; [done|]. by apply Hroom. }
  exists st'. split; [|split; [done|split]].
  - rewrite Run_app, Hrun1. cbn. by rewrite Hrun.
  - intros c Hc. pose proof (proj1 (Hsame c) Hc) as Hc0.
    assert (Hc1 : c ∈ clients st1) by (by apply Hmem1).
    destruct (proj1 (is_open_lookup st1 c) (Hinv1 c Hc1)) as (cl & Hcl & Ho).
    unfold queue, chan_of. rewrite Hheap, decide_True, Hcl by done.
    rewrite <- Hheap1, Hcl. simpl. unfold after_deliver.
    assert (Hnf : full (send cl) = false).
    { rewrite <- (Hroom c Hc0), <- Hfull1. unfold is_full, chan_of. by rewrite Hcl. }
    by rewrite Hnf.
  - intros c Hc. assert (Hc1 : c ∉ clients st1).
    { intros Hc1. apply Hc, Hsame. by apply Hmem1. }
    unfold queue, chan_of. by rewrite Hheap, decide_False, Hheap1 by done.
Qed.

Lemma registrations_then_broadcast_witness :
  let h : gmap ptr Client :=
    {[ 1%positive := newClient "Ann"; 2%positive := newClient "Bo" ]} in
  let hi := format_message "Ann" (String.list_byte_of_string "hi" ++ [newline]) in
  ∃ st', Run ((Register <$> [1%positive; 2%positive]) ++ [Broadcast hi]) (NewHub h) = Ok st'
    ∧ (∀ c, c ∈ clients st' ↔ c ∈ clients (NewHub h) ∨ c ∈ [1%positive; 2%positive])
    ∧ (∀ c, c ∈ clients st' → queue st' c = queue (NewHub h) c ++ [hi])
    ∧ (∀ c, c ∉ clients st' → queue st' c = queue (NewHub h) c).
Proof.
  intros h hi.
  apply (registrations_then_broadcast [1%positive; 2%positive] hi (NewHub h)).
  - apply (bool_decide_unpack _). vm_compute. exact I.
  - intros c Hc.
    apply elem_of_cons in Hc as [->|Hc]; [reflexivity|].
    apply elem_of_cons in Hc as [->|Hc]; [reflexivity|].
    by apply elem_of_nil in Hc.
  - intros c [Hc|Hc].
    + by apply elem_of_empty in Hc.
    + apply elem_of_cons in Hc as [->|Hc]; [reflexivity|].
      apply elem_of_cons in Hc as [->|Hc]; [reflexivity|].
      by apply elem_of_nil in Hc.
Defined.

(** C3. An unregister event for a client that is not in the registered set
    returns the very same state, without a panic: the set is unchanged and
    no queue is closed.  Whenever an unregister event succeeds the client is
    out of the set afterwards, so a second unregister event for it changes
    nothing: the run of both is the run of the first alone. *)
Theorem unregister_idempotent (c : ptr) (st : state) :
  (c ∉ clients st → hub_step (Unregister c) st = Ok st)
  ∧ (∀ st', hub_step (Unregister c) st = Ok st' →
       (c ∉ clients st') ∧ hub_step (Unregister c) st' = Ok st')
  ∧ Run [Unregister c; Unregister c] st = Run [Unregister c] st.
Proof.
  assert (Hsecond : ∀ st', hub_step (Unregister c) st = Ok st' →
            (c ∉ clients st') ∧ hub_step (Unregister c) st' = Ok st').
  { intros st' Hst'. assert (Hout : c ∉ clients st').
    { cbn [hub_step] in Hst'. unfold unregister in Hst'.
      destruct (decide (c ∈ clients st)) as [Hc|Hc].
      - destruct (heap st !! c) as [cl|]; [|done].
        destruct (close (send cl)) as [ch'|p]; [|done].
        cbn in Hst'. injection Hst' as <-. cbn. set_solver.
      - by injection Hst' as <-. }
    split; [done|]. by apply unregister_absent. }
  split; [apply unregister_absent|]. split; [done|].
  cbn [Run]. destruct (hub_step (Unregister c) st) as [st'|p] eqn:E; [|done].
  destruct (Hsecond st' eq_refl) as [_ Hs]. unfold mbind, result_bind. by rewrite Hs.
Qed.

Lemma unregister_idempotent_witness :
  let h : gmap ptr Client := {[ 1%positive := newClient "Ann" ]} in
  let st := {| clients := {[ 1%positive ]}; heap := h |} in
  hub_step (Unregister 2%positive) st = Ok st
  ∧ (∃ st', hub_step (Unregister 1%positive) st = Ok st'
       ∧ is_closed st' 1%positive = true
       ∧ hub_step (Unregister 1%positive) st' = Ok st').
Proof.
  intros h st. split.
  - apply (proj1 (unregister_idempotent 2%positive st)).
    apply (bool_decide_unpack _). vm_compute. exact I.
  - eexists. split; [vm_compute; reflexivity|]. split; [reflexivity|].
    eapply (proj1 (proj2 (unregister_idempotent 1%positive st))).
    vm_compute. reflexivity.
Defined.

(** C4, as stated, fails: [register] does not look at the queue, so a client
    registered again after its removal is in the set with its queue closed,
    and the next unregister event closes the queue a second time (a panic),
    as the next broadcast sends on it (a panic too). *)
Lemma registered_again_closed_queue :
  let st0 := NewHub {[ 1%positive := newClient "Ann" ]} in
  let evs := [Register 1%positive; Unregister 1%positive; Register 1%positive] in
  hub_inv st0
  ∧ (∃ st, Run evs st0 = Ok st
       ∧ 1%positive ∈ clients st ∧ is_closed st 1%positive = true ∧ ¬ hub_inv st)
  ∧ Run (evs ++ [Unregister 1%positive]) st0 = Panic CloseOfClosed
  ∧ Run (evs ++ [Broadcast [newline]]) st0 = Panic SendOnClosed.
Proof.
  intros st0 evs. split; [by_evaluation|]. split; [|split; vm_compute; reflexivity].
  eexists. split; [vm_compute; reflexivity|].
  split; [by_evaluation|]. split; [reflexivity|].
  apply (bool_decide_eq_false_1 (hub_inv _)). vm_compute. reflexivity.
Qed.

(** C4, amended.  From a state where every registered client's queue is
    open, over any sequence of events in which no client is registered while
    its queue is closed, the hub never panics and at every moment membership
    in the set implies an open queue.  Every event leaves every closed queue
    as it is, so no queue is closed twice; and a queue is closed by an event
    only if its client was in the set before the event and is out of it
    after. *)
Theorem queue_closed_once_on_removal (evs : list event) (st : state) :
  hub_inv st → admissible evs st = true →
  (∃ st', Run evs st = Ok st' ∧ hub_inv st')
  ∧ ∀ pre e post s1, evs = pre ++ e :: post → Run pre st = Ok s1 →
      ∃ s2, hub_step e s1 = Ok s2 ∧ hub_inv s1 ∧ hub_inv s2
        ∧ (∀ c, is_closed s1 c = true →
                heap s2 !! c = heap s1 !! c ∧ c ∉ clients s2)
        ∧ (∀ c, is_closed s1 c = false → is_closed s2 c = true →
                c ∈ clients s1 ∧ c ∉ clients s2).
Proof.
  intros Hinv Hadm. split.
  - destruct (Run_admissible evs st Hinv Hadm) as (st' & ? & ? & _). by exists st'.
  - intros pre e post s1 -> Hpre.
    assert (Hadm1 : admissible (e :: post) s1 = true) by (by eapply admissible_app).
    assert (Hinv1 : hub_inv s1).
    { destruct (Run_admissible pre st Hinv) as (s1' & Hs1' & ? & _).
      - by eapply admissible_prefix.
      - rewrite Hpre in Hs1'. by injection Hs1' as <-. }
    apply admissible_cons in Hadm1 as [He _].
    destruct (hub_step_inv e s1 Hinv1 He) as (s2 & Hs2 & Hinv2 & Hkeep & Hclose).
    exists s2. split; [done|]. split; [done|]. split; [done|]. by split.
Qed.

Lemma queue_closed_once_on_removal_witness :
  let st0 := NewHub {[ 1%positive := newClient "Ann"; 2%positive := newClient "Bo" ]} in
  let evs := [Register 1%positive; Register 2%positive; Broadcast [newline];
              Unregister 1%positive; Unregister 1%positive; Broadcast [newline]] in
  (∃ st', Run evs st0 = Ok st' ∧ hub_inv st')
  ∧ ∀ pre e post s1, evs = pre ++ e :: post → Run pre st0 = Ok s1 →
      ∃ s2, hub_step e s1 = Ok s2 ∧ hub_inv s1 ∧ hub_inv s2
        ∧ (∀ c, is_closed s1 c = true →
                heap s2 !! c = heap s1 !! c ∧ c ∉ clients s2)
        ∧ (∀ c, is_closed s1 c = false → is_closed s2 c = true →
                c ∈ clients s1 ∧ c ∉ clients s2).
Proof.
  intros st0 evs. apply (queue_closed_once_on_removal evs st0).
  - apply (bool_decide_unpack _). vm_compute. exact I.
  - vm_compute. reflexivity.
Defined.

(** ** Bytes, strings and lines *)

Section lines.
Implicit Types (s : string) (l line payload input : list byte) (d : byte).

Lemma list_byte_of_string_app s1 s2 :
  String.list_byte_of_string (s1 +:+ s2)
  = String.list_byte_of_string s1 ++ String.list_byte_of_string s2.
Proof.
  unfold String.list_byte_of_string.
  induction s1 as [|a s1 IH]; simpl; [done|]. by rewrite IH.
Qed.

Lemma string_of_list_byte_app l1 l2 :
  String.string_of_list_byte (l1 ++ l2)
  = String.string_of_list_byte l1 +:+ String.string_of_list_byte l2.
Proof.
  unfold String.string_of_list_byte.
  induction l1 as [|b l1 IH]; simpl; [done|]. by rewrite IH.
Qed.

Lemma len_string_of_list_byte l :
  len (String.string_of_list_byte l) = Z.of_nat (length l).
Proof.
  unfold len, String.string_of_list_byte. f_equal.
  induction l as [|b l IH]; simpl; [done|]. by rewrite IH.
Qed.

Lemma substring_prefix s1 s2 :
  String.substring 0 (String.length s1) (s1 +:+ s2) = s1.
Proof.
  induction s1 as [|a s1 IH]; simpl.
  - by destruct s2.
  - by rewrite IH.
Qed.

Lemma format_message_bytes nick line :
  format_message nick line
  = String.list_byte_of_string ("[" +:+ nick +:+ "]: ") ++ line.
Proof.
  unfold format_message.
  rewrite !list_byte_of_string_app, String.list_byte_of_string_of_list_byte.
  by rewrite <- !app_assoc.
Qed.

(** A complete line: everything up to the first delimiter, which is kept. *)
Lemma ReadBytes_line d payload rest :
  d ∉ payload → ReadBytes d (payload ++ d :: rest) = (payload ++ [d], Some rest).
Proof.
  induction payload as [|b payload IH]; intros Hd; simpl.
  - by rewrite decide_True.
  - apply not_elem_of_cons in Hd as [Hne Hd].
    rewrite decide_False by done. by rewrite IH.
Qed.

(** No delimiter before the read fails: an error, and no line. *)
Lemma ReadBytes_error d input : d ∉ input → ReadBytes d input = (input, None).
Proof.
  induction input as [|b input IH]; intros Hd; simpl; [done|].
  apply not_elem_of_cons in Hd as [Hne Hd].
  rewrite decide_False by done. by rewrite IH.
Qed.

(** [ReadBytes] returns no error only with data that ends in the delimiter. *)
Lemma ReadBytes_ok_inv d input line more :
  ReadBytes d input = (line, Some more) →
  ∃ payload, (d ∉ payload) ∧ line = payload ++ [d] ∧ input = payload ++ d :: more.
Proof.
  revert line. induction input as [|b input IH]; intros line; simpl; [done|].
  destruct (decide (b = d)) as [->|Hne].
  - intros [= <- <-]. exists []. split; [apply not_elem_of_nil | done].
  - destruct (ReadBytes d input) as [l r] eqn:E. intros [= <- ->].
    destruct (IH l eq_refl) as (payload & Hd & -> & ->).
    exists (b :: payload). split; [|done].
    apply not_elem_of_cons. split; [congruence | done].
Qed.

Lemma readPump_step c nick input :
  readPump c nick input =
    match ReadBytes newline input with
    | (line, Some more) => Broadcast (format_message nick line) :: readPump c nick more
    | (_, None) => [Unregister c]
    end.
Proof.
  funelim (readPump c nick input).
  - by rewrite e.
  - by rewrite e.
Qed.

(** Every broadcast of [readPump] is a formatted line that was read. *)
Lemma readPump_broadcasts c nick input (m : message) :
  Broadcast m ∈ readPump c nick input →
  ∃ payload, (newline ∉ payload) ∧ m = format_message nick (payload ++ [newline]).
Proof.
  funelim (readPump c nick input).
  - intros [[= ->]|Hm]%elem_of_cons; [|by eauto].
    destruct (ReadBytes_ok_inv _ _ _ _ e) as (payload & Hpayload & -> & _).
    by exists payload.
  - intros [[=]|Hm]%elem_of_cons. by apply elem_of_nil in Hm.
Qed.

End lines.

(** ** The handshake *)

Section handshake_facts.
Implicit Types (name payload input rest : list byte) (h : gmap ptr Client).

(** Dropping the last byte of a read line is in bounds and leaves what
    came before the delimiter. *)
Lemma slice_to_drops_delimiter payload (d : byte) :
  let line := String.string_of_list_byte (payload ++ [d]) in
  1 ≤ len line
  ∧ slice_to line (len line - 1) = Ok (String.string_of_list_byte payload).
Proof.
  intros line. subst line.
  assert (Hlen : len (String.string_of_list_byte (payload ++ [d]))
                 = Z.of_nat (length payload) + 1).
  { rewrite len_string_of_list_byte, length_app. simpl. lia. }
  split; [lia|]. unfold slice_to. rewrite Hlen.
  rewrite decide_True by lia. f_equal.
  replace (Z.to_nat (Z.of_nat (length payload) + 1 - 1))
    with (String.length (String.string_of_list_byte payload)).
  - rewrite string_of_list_byte_app. apply substring_prefix.
  - pose proof (len_string_of_list_byte payload) as Hp. unfold len in Hp. lia.
Qed.

Lemma handleConnection_line name rest h :
  newline ∉ name →
  handleConnection true (name ++ newline :: rest) h =
    Ok (Accepted (fresh (dom h))
          (<[fresh (dom h) := newClient (String.string_of_list_byte name)]> h)
          [Register (fresh (dom h));
           Broadcast (String.list_byte_of_string
                        (joinMsg (String.string_of_list_byte name)))]).
Proof.
  intros Hname. unfold handleConnection, ReadString. cbn [negb].
  rewrite (ReadBytes_line _ _ _ Hname).
  destruct (slice_to_drops_delimiter name newline) as [_ ->]. done.
Qed.

Lemma handshake_nickname_line name rest :
  newline ∉ name →
  handshake_nickname (name ++ newline :: rest) = Some (String.string_of_list_byte name).
Proof.
  intros Hname. unfold handshake_nickname.
  rewrite (handleConnection_line _ _ _ Hname). by rewrite lookup_insert_eq.
Qed.

(** The nickname of an accepted client is the first line without its
    newline, so it holds no newline. *)
Lemma handshake_nickname_inv input nick :
  handshake_nickname input = Some nick →
  ∃ name rest, (newline ∉ name) ∧ input = name ++ newline :: rest
    ∧ nick = String.string_of_list_byte name.
Proof.
  unfold handshake_nickname, handleConnection, ReadString. cbn [negb].
  destruct (ReadBytes newline input) as [line [more|]] eqn:E; [|done].
  apply ReadBytes_ok_inv in E as (name & Hname & -> & ->).
  destruct (slice_to_drops_delimiter name newline) as [_ ->]. cbn.
  rewrite lookup_insert_eq. intros [= <-]. by exists name, more.
Qed.

(** A client allocated by the handshake leaves the hub invariant alone. *)
Lemma hub_inv_alloc st cl :
  hub_inv st → closed (send cl) = false →
  hub_inv {| clients := clients st; heap := <[fresh (dom (heap st)) := cl]> (heap st) |}
  ∧ is_open {| clients := clients st;
               heap := <[fresh (dom (heap st)) := cl]> (heap st) |}
            (fresh (dom (heap st))) = true.
Proof.
  intros Hinv Hcl. split.
  - intros c Hc. pose proof (Hinv c Hc) as Ho.
    apply is_open_lookup in Ho as (cl' & Hcl' & Ho).
    apply is_open_lookup. exists cl'. split; [|done]. cbn.
    rewrite lookup_insert_ne; [done|]. intros <-.
    apply (is_fresh (dom (heap st))). apply elem_of_dom. by exists cl'.
  - apply is_open_lookup. exists cl. split; [|done]. cbn. by rewrite lookup_insert_eq.
Qed.

End handshake_facts.

(** C5, as stated, fails.  Ann is client 1 and Bo client 2; both have the two
    join notices and Ann's message queued.  Bo's stream ends: his
    [readPump] sends the unregistration and nothing else, and after the hub
    has processed it Ann's queue is what it was: no leave notice. *)
Lemma no_leave_notice :
  ∃ st1 st2, ann_bo_hi = Ok st1
    ∧ clients st1 = {[ 1%positive; 2%positive ]}
    ∧ queue st1 1%positive =
        [bytes ("Ann has joined the chat." +:+ LF);
         bytes ("Bo has joined the chat." +:+ LF);
         bytes ("[Ann]: hi" +:+ LF)]
    ∧ readPump 2%positive "Bo" [] = [Unregister 2%positive]
    ∧ Run (readPump 2%positive "Bo" []) st1 = Ok st2
    ∧ clients st2 = {[ 1%positive ]}
    ∧ queue st2 1%positive = queue st1 1%positive.
Proof.
  eexists. eexists. split; [vm_compute; reflexivity|].
  split; [vm_compute; reflexivity|]. split; [vm_compute; reflexivity|].
  split; [vm_compute; reflexivity|]. split; [vm_compute; reflexivity|].
  split; vm_compute; reflexivity.
Qed.

(** C5, amended.  When the stream of a registered client ends (what is left
    to read holds no complete line), its [readPump] sends the hub one event,
    its unregistration.  The hub removes the client from the set and closes
    its queue; the heap cell of every other client is untouched, so nothing,
    and no leave notice, is enqueued for anyone; and whatever broadcasts
    follow leave the departed client out of the set and its queue as it is. *)
Theorem disconnect_unregisters_only (c : ptr) (nick : string) (tail : list byte)
    (st : state) :
  newline ∉ tail → hub_inv st → c ∈ clients st →
  readPump c nick tail = [Unregister c]
  ∧ ∃ st', Run (readPump c nick tail) st = Ok st' ∧ hub_inv st'
      ∧ clients st' = clients st ∖ {[c]}
      ∧ is_closed st' c = true
      ∧ (∀ c', c' ≠ c → heap st' !! c' = heap st !! c')
      ∧ (∀ ms, ∃ st'', Run (Broadcast <$> ms) st' = Ok st''
               ∧ (c ∉ clients st'') ∧ heap st'' !! c = heap st' !! c).
Proof.
  intros Htail Hinv Hc.
  assert (Hev : readPump c nick tail = [Unregister c]).
  { rewrite readPump_step. by rewrite (ReadBytes_error _ _ Htail). }
  split; [done|]. rewrite Hev. cbn [Run hub_step].
  destruct (unregister_member c st Hinv Hc) as (cl & Hcl & Ho & ->).
  set (st' := {| clients := _; heap := _ |}).
  assert (Hinv' : hub_inv st').
  { destruct (hub_step_inv (Unregister c) st Hinv) as (s & Hs & ? & _).
    - cbn [admissible hub_step]. by destruct (unregister c st).
    - cbn [hub_step] in Hs.
      destruct (unregister_member c st Hinv Hc) as (cl' & Hcl' & _ & Hu).
      rewrite Hu in Hs. injection Hs as <-.
      assert (cl' = cl) as -> by congruence. done. }
  assert (Hclosed : is_closed st' c = true).
  { unfold is_closed, chan_of. subst st'. cbn. by rewrite lookup_insert_eq. }
  exists st'. split; [done|]. split; [done|]. split; [done|]. split; [done|]. split.
  - intros c' Hne. subst st'. cbn. by rewrite lookup_insert_ne.
  - intros ms.
    destruct (Run_admissible (Broadcast <$> ms) st' Hinv') as (st'' & Hrun'' & _ & Hkeep).
    { apply admissible_no_register. intros c' (e & [=] & _)%list_elem_of_fmap. }
    exists st''. split; [done|]. destruct (Hkeep c Hclosed). by split.
Qed.

Lemma disconnect_unregisters_only_witness :
  let st := {| clients := {[ 1%positive; 2%positive ]};
               heap := {[ 1%positive := newClient "Ann"; 2%positive := newClient "Bo" ]} |} in
  readPump 2%positive "Bo" (bytes "by") = [Unregister 2%positive]
  ∧ ∃ st', Run (readPump 2%positive "Bo" (bytes "by")) st = Ok st' ∧ hub_inv st'
      ∧ clients st' = clients st ∖ {[2%positive]}
      ∧ is_closed st' 2%positive = true
      ∧ (∀ c', c' ≠ 2%positive → heap st' !! c' = heap st !! c')
      ∧ (∀ ms, ∃ st'', Run (Broadcast <$> ms) st' = Ok st''
               ∧ (2%positive ∉ clients st'') ∧ heap st'' !! 2%positive = heap st' !! 2%positive).
Proof.
  intros st. apply (disconnect_unregisters_only 2%positive "Bo" (bytes "by") st).
  - apply (bool_decide_unpack _). vm_compute. exact I.
  - apply (bool_decide_unpack _). vm_compute. exact I.
  - apply (bool_decide_unpack _). vm_compute. exact I.
Defined.

(** C6. [maxMessageSize] is 1024 and [readPump] does not use it: a line of
    any length is read whole and forwarded to the hub, formatted and
    otherwise unchanged, and the pump goes on with the next line.  A payload
    longer than [maxMessageSize] thus gives a broadcast message longer than
    [maxMessageSize]. *)
Theorem readPump_forwards_any_length (c : ptr) (nick : string)
    (payload rest : list byte) :
  newline ∉ payload →
  maxMessageSize = 1024
  ∧ readPump c nick (payload ++ newline :: rest)
    = Broadcast (bytes "[" ++ bytes nick ++ bytes "]: " ++ payload ++ [newline])
        :: readPump c nick rest
  ∧ (maxMessageSize < Z.of_nat (length payload) →
     maxMessageSize < Z.of_nat (length (format_message nick (payload ++ [newline])))).
Proof.
  intros Hpayload. split; [done|]. split.
  - rewrite readPump_step, (ReadBytes_line _ _ _ Hpayload).
    rewrite format_message_bytes. unfold bytes.
    by rewrite !list_byte_of_string_app, <- !app_assoc.
  - rewrite format_message_bytes, !length_app. lia.
Qed.

Lemma readPump_forwards_any_length_witness :
  let payload := replicate 2000 "a"%byte in
  maxMessageSize = 1024
  ∧ readPump 1%positive "Ann" (payload ++ newline :: [])
    = Broadcast (bytes "[" ++ bytes "Ann" ++ bytes "]: " ++ payload ++ [newline])
        :: readPump 1%positive "Ann" []
  ∧ (maxMessageSize < Z.of_nat (length payload) →
     maxMessageSize < Z.of_nat (length (format_message "Ann" (payload ++ [newline])))).
Proof.
  intros payload. apply (readPump_forwards_any_length 1%positive "Ann" payload []).
  apply (bool_decide_unpack _). vm_compute. exact I.
Defined.

(** A line of 2000 bytes, nearly twice [maxMessageSize], is broadcast whole. *)
Example readPump_line_of_2000 :
  readPump 1%positive "Ann" (replicate 2000 "a"%byte ++ [newline])
  = [Broadcast (bytes "[Ann]: " ++ replicate 2000 "a"%byte ++ [newline]);
     Unregister 1%positive].
Proof. vm_compute. reflexivity. Qed.

(** C7.  The nickname is the first line without its last byte, the newline,
    and nothing else is trimmed: a space or a carriage return before the
    newline stays in the name, against the comment on the slice in
    [handleConnection] (trim whitespace and newline characters). *)
Theorem handshake_keeps_trailing_whitespace :
  handshake_nickname (bytes "Bo " ++ [newline]) = Some "Bo "
  ∧ handshake_nickname (bytes "Bo" ++ [x0d; newline])
    = Some (String.string_of_list_byte (bytes "Bo" ++ [x0d]))
  ∧ trim_trailing_whitespace (bytes "Bo " ++ [newline]) = "Bo"
  ∧ trim_trailing_whitespace (bytes "Bo" ++ [x0d; newline]) = "Bo".
Proof. repeat split; vm_compute; reflexivity. Qed.

(** C8. Every message the [readPump] of a client accepted by the handshake
    broadcasts is its nickname in brackets, a colon, a space, the payload
    read, and the newline that ended the line: the newline comes last and
    there is no other.  [writePump] hands the message to the connection as
    it is. *)
Theorem chat_message_format (hs : list byte) (c : ptr) (nick : string)
    (input : list byte) (m : message) :
  handshake_nickname hs = Some nick →
  Broadcast m ∈ readPump c nick input →
  ∃ payload,
    m = bytes ("[" +:+ nick +:+ "]: ") ++ payload ++ [newline]
    ∧ (newline ∉ bytes ("[" +:+ nick +:+ "]: ") ++ payload)
    ∧ ∀ write_ok rounds, ∃ later, writePump (FromSend m write_ok :: rounds) = m :: later.
Proof.
  intros Hnick Hm.
  apply handshake_nickname_inv in Hnick as (name & _ & Hname & _ & ->).
  apply readPump_broadcasts in Hm as (payload & Hpayload & ->).
  exists payload. rewrite format_message_bytes. split; [done|]. split.
  - unfold bytes.
    rewrite !list_byte_of_string_app, String.list_byte_of_string_of_list_byte.
    rewrite !not_elem_of_app. split; [split; [|split; [done|]]|done].
    + apply (bool_decide_unpack _). vm_compute. exact I.
    + apply (bool_decide_unpack _). vm_compute. exact I.
  - intros write_ok rounds. cbn. by eexists.
Qed.

Lemma chat_message_format_witness :
  ∃ payload,
    bytes ("[Ann]: hi" +:+ LF) = bytes ("[" +:+ "Ann" +:+ "]: ") ++ payload ++ [newline]
    ∧ (newline ∉ bytes ("[" +:+ "Ann" +:+ "]: ") ++ payload)
    ∧ ∀ write_ok rounds, ∃ later,
        writePump (FromSend (bytes ("[Ann]: hi" +:+ LF)) write_ok :: rounds)
        = bytes ("[Ann]: hi" +:+ LF) :: later.
Proof.
  apply (chat_message_format (bytes "Ann" ++ [newline]) 1%positive "Ann"
           (bytes "hi" ++ [newline] ++ bytes "yo" ++ [newline])).
  - vm_compute. reflexivity.
  - apply (bool_decide_unpack _). vm_compute. exact I.
Defined.

(** C9. A client's outbound queue holds 256 messages; the idle-read deadline
    [pongWait] is 60 seconds, the keepalive period [pingPeriod] is nine
    tenths of it, 54 seconds, and the write deadline [writeWait] is 10
    seconds. *)
Theorem timing_and_capacity_constants (nick : string) :
  cap (send (newClient nick)) = 256%nat
  ∧ pongWait = 60 * Second
  ∧ pingPeriod = 54 * Second
  ∧ 10 * pingPeriod = 9 * pongWait
  ∧ writeWait = 10 * Second.
Proof. repeat split. Qed.

(** C10. When the nickname read succeeds the line ends with the newline, so
    it has at least one byte and the slice that drops the last one is in
    bounds: [handleConnection] never panics, whatever the client sends.  A
    client that sends a bare newline gets the empty nickname, and is
    accepted and registered like any other. *)
Theorem handshake_slice_in_bounds :
  (∀ input line more, ReadString newline input = (line, Some more) →
     1 ≤ len line
     ∧ ∃ name, slice_to line (len line - 1) = Ok name ∧ line = name +:+ LF)
  ∧ (∀ prompt_ok input h, ∃ r, handleConnection prompt_ok input h = Ok r)
  ∧ (∀ rest st, hub_inv st →
       ∃ c h' evs st',
         handleConnection true (newline :: rest) (heap st) = Ok (Accepted c h' evs)
         ∧ nickname <$> h' !! c = Some ""
         ∧ Run evs {| clients := clients st; heap := h' |} = Ok st'
         ∧ c ∈ clients st').
Proof.
  assert (Hread : ∀ input line more, ReadString newline input = (line, Some more) →
     1 ≤ len line
     ∧ ∃ name, slice_to line (len line - 1) = Ok name ∧ line = name +:+ LF).
  { intros input line more. unfold ReadString.
    destruct (ReadBytes newline input) as [l [r|]] eqn:E; [|done].
    intros [= <- <-]. apply ReadBytes_ok_inv in E as (payload & _ & -> & _).
    destruct (slice_to_drops_delimiter payload newline) as [Hlen Hslice].
    split; [done|]. exists (String.string_of_list_byte payload).
    split; [done|]. by rewrite string_of_list_byte_app. }
  split; [done|]. split.
  - intros [|] input h; unfold handleConnection; cbn [negb]; [|by eexists].
    destruct (ReadString newline input) as [line [more|]] eqn:E; [|by eexists].
    destruct (Hread _ _ _ E) as (_ & name & -> & _). by eexists.
  - intros rest st Hinv.
    pose proof (handleConnection_line [] rest (heap st) (not_elem_of_nil _)) as Hh.
    cbn [app String.string_of_list_byte] in Hh.
    set (c := fresh (dom (heap st))) in *.
    destruct (hub_inv_alloc st (newClient "") Hinv eq_refl) as [Hinv0 Ho].
    fold c in Hinv0, Ho.
    set (st0 := {| clients := clients st; heap := <[c := newClient ""]> (heap st) |}) in *.
    destruct (register_inv c st0 Hinv0 Ho) as [Hreg Hinv1].
    destruct (broadcast_spec (bytes (joinMsg "")) _ Hinv1) as (st' & Hb & _ & Hmem).
    exists c, (<[c := newClient ""]> (heap st)),
      [Register c; Broadcast (bytes (joinMsg ""))], st'.
    split; [exact Hh|]. split; [by rewrite lookup_insert_eq|].
    split.
    + fold st0. cbn [Run hub_step]. rewrite Hreg, bind_Ok, Hb. done.
    + apply Hmem. split; [cbn; set_solver|].
      unfold is_full, chan_of. subst st0. cbn. by rewrite lookup_insert_eq.
Qed.

Lemma handshake_slice_in_bounds_witness :
  (1 ≤ len LF ∧ ∃ name, slice_to LF (len LF - 1) = Ok name ∧ LF = name +:+ LF)
  ∧ ∃ c h' evs st',
      handleConnection true [newline] (heap (NewHub ∅)) = Ok (Accepted c h' evs)
      ∧ nickname <$> h' !! c = Some ""
      ∧ Run evs {| clients := clients (NewHub ∅); heap := h' |} = Ok st'
      ∧ c ∈ clients st'.
Proof.
  split.
  - apply (proj1 handshake_slice_in_bounds [newline] LF []). reflexivity.
  - apply (proj2 (proj2 handshake_slice_in_bounds) [] (NewHub ∅)).
    apply (bool_decide_unpack _). vm_compute. exact I.
Defined.

(** * Further properties of the hub *)

Section evolution.
Implicit Types (st : state) (c : ptr) (m : message) (cl : Client).

Lemma cell_evolves_refl cl : cell_evolves cl cl.
Proof. by repeat split. Qed.

Lemma cell_evolves_trans cl1 cl2 cl3 :
  cell_evolves cl1 cl2 → cell_evolves cl2 cl3 → cell_evolves cl1 cl3.
Proof.
  intros (Hn & Hc & Hp & Hcl & Hb) (Hn' & Hc' & Hp' & Hcl' & Hb').
  split; [congruence|]. split; [congruence|]. split; [by etrans|]. split; [|tauto].
  intros Hclosed. pose proof (Hcl Hclosed) as ->. by apply Hcl'.
Qed.

Lemma heap_evolves_refl h : heap_evolves h h.
Proof. intros c. destruct (h !! c); [apply cell_evolves_refl | done]. Qed.

Lemma heap_evolves_trans h1 h2 h3 :
  heap_evolves h1 h2 → heap_evolves h2 h3 → heap_evolves h1 h3.
Proof.
  intros H12 H23 c. specialize (H12 c). specialize (H23 c).
  destruct (h1 !! c), (h2 !! c), (h3 !! c); try done.
  by eapply cell_evolves_trans.
Qed.

(** Replacing one cell by an evolved one. *)
Lemma heap_evolves_insert h c cl cl' :
  h !! c = Some cl → cell_evolves cl cl' → heap_evolves h (<[c := cl']> h).
Proof.
  intros Hc Hev c'. destruct (decide (c' = c)) as [->|Hne].
  - by rewrite lookup_insert_eq, Hc.
  - rewrite lookup_insert_ne by done.
    destruct (h !! c'); [apply cell_evolves_refl | done].
Qed.

Lemma deliver_evolves m c st st' :
  deliver m c st = Ok st' →
  heap_evolves (heap st) (heap st') ∧ clients st' ⊆ clients st.
Proof.
  unfold deliver, try_send, close.
  destruct (heap st !! c) as [cl|] eqn:Hc; [|done].
  destruct (closed (send cl)) eqn:Hcl; [done|].
  destruct (full (send cl)) eqn:Hfull; cbn; rewrite ?Hcl; intros [= <-]; cbn.
  - split; [|set_solver]. apply (heap_evolves_insert _ _ cl); [done|].
    split; [done|]. split; [done|]. split; [done|]. split; [congruence | done].
  - split; [|done]. apply (heap_evolves_insert _ _ cl); [done|].
    split; [done|]. split; [done|]. split; [by apply prefix_app_r|].
    split; [congruence|]. cbn. intros _. rewrite length_app. cbn.
    unfold full in Hfull. apply bool_decide_eq_false in Hfull. lia.
Qed.

Lemma broadcast_over_evolves order m st st' :
  broadcast_over order m st = Ok st' →
  heap_evolves (heap st) (heap st') ∧ clients st' ⊆ clients st.
Proof.
  revert st. induction order as [|c order IH]; intros st; cbn [broadcast_over].
  - intros [= <-]. split; [apply heap_evolves_refl | done].
  - destruct (deliver m c st) as [st1|] eqn:Hd; [|done]. rewrite bind_Ok.
    intros Hrest. destruct (deliver_evolves _ _ _ _ Hd) as [Hh1 Hc1].
    destruct (IH _ Hrest) as [Hh2 Hc2].
    split; [by eapply heap_evolves_trans | set_solver].
Qed.

Lemma hub_step_evolves e st st' :
  hub_step e st = Ok st' →
  heap_evolves (heap st) (heap st')
  ∧ ∀ c, c ∈ clients st' → c ∈ clients st ∨ e = Register c.
Proof.
  destruct e as [c|c|m]; cbn [hub_step].
  - unfold register. destruct (heap st !! c); [|done]. intros [= <-]. cbn.
    split; [apply heap_evolves_refl|].
    intros c' [->%elem_of_singleton|?]%elem_of_union; [by right | by left].
  - unfold unregister, close. destruct (decide (c ∈ clients st)).
    + destruct (heap st !! c) as [cl|] eqn:Hc; [|done].
      destruct (closed (send cl)) eqn:Hcl; [done|]. cbn. intros [= <-]. cbn. split.
      * apply (heap_evolves_insert _ _ cl); [done|].
        split; [done|]. split; [done|]. split; [done|]. split; [congruence | done].
      * intros c' [? _]%elem_of_difference. by left.
    + intros [= <-]. split; [apply heap_evolves_refl | by left].
  - intros [Hh Hc]%broadcast_over_evolves. split; [done|].
    intros c ?. left. by apply Hc.
Qed.

Lemma Run_evolves evs st st' :
  Run evs st = Ok st' →
  heap_evolves (heap st) (heap st')
  ∧ ∀ c, c ∈ clients st' → c ∈ clients st ∨ c ∈ registered evs.
Proof.
  revert st. induction evs as [|e evs IH]; intros st; cbn [Run].
  - intros [= <-]. split; [apply heap_evolves_refl | by left].
  - destruct (hub_step e st) as [st1|] eqn:He; [|done]. rewrite bind_Ok.
    intros Hrest. destruct (hub_step_evolves _ _ _ He) as [Hh1 Hc1].
    destruct (IH _ Hrest) as [Hh2 Hc2].
    split; [by eapply heap_evolves_trans|].
    intros c [Hc|Hc]%Hc2.
    + destruct (Hc1 c Hc) as [?| ->]; [by left|]. right. cbn. left.
    + right. destruct e; cbn; [by right | done..].
Qed.

End evolution.

(** X1. Whatever the hub is sent, as long as it does not panic, no queue
    that was within its capacity ends up holding more messages than its
    capacity: a client created by [newClient] never has more than 256
    messages waiting. *)
Theorem hub_queue_within_capacity (evs : list event) (st st' : state) :
  Run evs st = Ok st' → within_capacity st → within_capacity st'.
Proof.
  intros [Hev _]%Run_evolves Hcap c cl' Hcl'. specialize (Hev c).
  rewrite Hcl' in Hev. destruct (heap st !! c) as [cl|] eqn:Hcl; [|done].
  destruct Hev as (_ & _ & _ & _ & Hb). apply Hb. by apply (Hcap c cl).
Qed.

Lemma hub_queue_within_capacity_witness : within_capacity hub_after_eviction.
Proof.
  apply (hub_queue_within_capacity [Broadcast [newline]] hub_256_full).
  - vm_compute. reflexivity.
  - apply (bool_decide_unpack _). vm_compute. exact I.
Defined.

(** X2. The hub never allocates, frees, renames or resizes a client, never
    removes or reorders what is queued (a queue only grows at its end), and
    never touches a client whose queue is closed. *)
Theorem hub_only_appends (evs : list event) (st st' : state) :
  Run evs st = Ok st' →
  ∀ c, (heap st' !! c = None ↔ heap st !! c = None)
    ∧ nickname <$> heap st' !! c = nickname <$> heap st !! c
    ∧ cap <$> chan_of st' c = cap <$> chan_of st c
    ∧ queue st c `prefix_of` queue st' c
    ∧ (is_closed st c = true → heap st' !! c = heap st !! c).
Proof.
  intros [Hev _]%Run_evolves c. specialize (Hev c).
  unfold queue, is_closed, chan_of.
  destruct (heap st !! c) as [cl|], (heap st' !! c) as [cl'|]; try done; cbn.
  destruct Hev as (Hn & Hc & Hp & Hcl & _).
  split; [done|]. split; [by rewrite Hn|]. split; [by rewrite Hc|].
  split; [done|]. intros Hclosed. by rewrite (Hcl Hclosed).
Qed.

Lemma hub_only_appends_witness :
  (heap hub_after_eviction !! 1%positive = None ↔ heap hub_256_full !! 1%positive = None)
  ∧ nickname <$> heap hub_after_eviction !! 1%positive
    = nickname <$> heap hub_256_full !! 1%positive
  ∧ cap <$> chan_of hub_after_eviction 1%positive = cap <$> chan_of hub_256_full 1%positive
  ∧ queue hub_256_full 1%positive `prefix_of` queue hub_after_eviction 1%positive
  ∧ (is_closed hub_256_full 1%positive = true →
     heap hub_after_eviction !! 1%positive = heap hub_256_full !! 1%positive).
Proof.
  apply (hub_only_appends [Broadcast [newline]] hub_256_full hub_after_eviction).
  vm_compute. reflexivity.
Defined.

(** X3. Only a register event puts a client into the set: a client that is
    registered after a run was registered before it or is registered by one
    of its events.  An unregistered or evicted client never comes back by
    itself. *)
Theorem hub_adds_only_registered (evs : list event) (st st' : state) :
  Run evs st = Ok st' →
  ∀ c, c ∈ clients st' → c ∈ clients st ∨ c ∈ registered evs.
Proof. intros [_ Hc]%Run_evolves. exact Hc. Qed.

Lemma hub_adds_only_registered_witness :
  2%positive ∈ clients (NewHub {[ 1%positive := newClient "Ann"; 2%positive := newClient "Bo" ]})
  ∨ 2%positive ∈ registered (Register 1%positive :: replicate 256 (Broadcast [newline])
                               ++ [Register 2%positive]).
Proof.
  apply (hub_adds_only_registered
           (Register 1%positive :: replicate 256 (Broadcast [newline]) ++ [Register 2%positive])
           (NewHub {[ 1%positive := newClient "Ann"; 2%positive := newClient "Bo" ]})
           hub_256_full).
  - vm_compute. reflexivity.
  - apply (bool_decide_unpack _). vm_compute. exact I.
Defined.

(** X4. The range loop of a broadcast gives the same state whatever the
    order in which the map yields the registered clients, provided their
    queues are open. *)
Theorem broadcast_order_irrelevant (order1 order2 : list ptr) (m : message) (st : state) :
  hub_inv st →
  NoDup order1 → (∀ c, c ∈ order1 ↔ c ∈ clients st) →
  NoDup order2 → (∀ c, c ∈ order2 ↔ c ∈ clients st) →
  broadcast_over order1 m st = broadcast_over order2 m st.
Proof.
  intros Hinv Hnd1 H1 Hnd2 H2.
  rewrite (broadcast_any_order order1 m st), (broadcast_any_order order2 m st); done.
Qed.

Lemma broadcast_order_irrelevant_witness :
  broadcast_over [1%positive; 2%positive] [newline] hub_256_full
  = broadcast_over [2%positive; 1%positive] [newline] hub_256_full.
Proof.
  apply broadcast_order_irrelevant.
  - apply (bool_decide_unpack _). vm_compute. exact I.
  - apply (bool_decide_unpack _). vm_compute. exact I.
  - intros c. cbn. set_solver.
  - apply (bool_decide_unpack _). vm_compute. exact I.
  - intros c. cbn. set_solver.
Defined.

(** X5. Registering a client that is registered already changes nothing:
    the map assignment is idempotent. *)
Theorem register_twice_noop (c : ptr) (st : state) :
  hub_inv st → c ∈ clients st → hub_step (Register c) st = Ok st.
Proof.
  intros Hinv Hc. cbn [hub_step]. unfold register.
  destruct (proj1 (is_open_lookup st c) (Hinv c Hc)) as (cl & -> & _).
  f_equal. destruct st as [X h]; cbn in *. f_equal. set_solver.
Qed.

Lemma register_twice_noop_witness :
  hub_step (Register 2%positive) hub_256_full = Ok hub_256_full.
Proof.
  apply register_twice_noop.
  - apply (bool_decide_unpack _). vm_compute. exact I.
  - apply (bool_decide_unpack _). vm_compute. exact I.
Defined.

(** X6. The hub loop never panics when it is used as the server uses it:
    from a state where registered clients have open queues, over any
    interleaving of events in which every client is registered at most
    once, not being registered yet and with its queue open, the run goes
    through and registered clients still have open queues. *)
Theorem hub_never_panics_registered_once (evs : list event) (st : state) :
  hub_inv st → NoDup (registered evs) →
  (∀ c, c ∈ registered evs → is_open st c = true ∧ c ∉ clients st) →
  ∃ st', Run evs st = Ok st' ∧ hub_inv st'.
Proof.
  intros Hinv Hnd Hreg.
  destruct (Run_admissible evs st Hinv) as (st' & ? & ? & _).
  - by apply registered_once_admissible.
  - by exists st'.
Qed.

Lemma hub_never_panics_registered_once_witness :
  ∃ st', Run [Register 1%positive; Broadcast [newline]; Unregister 1%positive;
              Unregister 1%positive; Register 2%positive; Broadcast [newline]]
             (NewHub {[ 1%positive := newClient "Ann"; 2%positive := newClient "Bo" ]})
         = Ok st' ∧ hub_inv st'.
Proof.
  apply hub_never_panics_registered_once.
  - apply (bool_decide_unpack _). vm_compute. exact I.
  - apply (bool_decide_unpack _). vm_compute. exact I.
  - intros c Hc. cbn in Hc.
    apply elem_of_cons in Hc as [->|Hc]; [split; [reflexivity | set_solver]|].
    apply elem_of_cons in Hc as [->|Hc]; [split; [reflexivity | set_solver]|].
    by apply elem_of_nil in Hc.
Defined.



(** A client created by [newClient] that drains nothing takes 256 messages
    and is evicted by the 257th. *)
Example new_client_evicted_at_257 :
  let st := {| clients := {[ 1%positive ]}; heap := {[ 1%positive := newClient "Ann" ]} |} in
  (∃ st', Run (Broadcast <$> replicate 256 [newline]) st = Ok st'
          ∧ 1%positive ∈ clients st' ∧ length (queue st' 1%positive) = 256%nat)
  ∧ (∃ st', Run (Broadcast <$> replicate 257 [newline]) st = Ok st'
          ∧ (1%positive ∉ clients st') ∧ length (queue st' 1%positive) = 256%nat
          ∧ is_closed st' 1%positive = true).
Proof.
  split.
  - eexists. split; [vm_compute; reflexivity|]. split; [by_evaluation | reflexivity].
  - eexists. split; [vm_compute; reflexivity|]. split; [by_evaluation|].
    split; reflexivity.
Qed.

(** * Further properties of the pumps and of the handshake *)

Section pump_facts.
Implicit Types (c : ptr) (nick : string) (input line tail : list byte).

Lemma ReadBytes_error_inv (d : byte) input line :
  ReadBytes d input = (line, None) → (d ∉ input) ∧ line = input.
Proof.
  revert line. induction input as [|b input IH]; intros line; cbn.
  - intros [= <-]. split; [apply not_elem_of_nil | done].
  - destruct (decide (b = d)); [done|].
    destruct (ReadBytes d input) as [l r] eqn:E. intros [= <- ->].
    destruct (IH l eq_refl) as [Hd ->]. split; [|done].
    apply not_elem_of_cons. split; [congruence | done].
Qed.

End pump_facts.

(** X8. [readPump] cuts its input into lines at the newlines: it broadcasts
    one formatted message per line, in order, each line with the one
    newline that ends it; what follows the last newline is dropped; and the
    unregistration is sent once, last, whatever the input. *)
Theorem readPump_lines (c : ptr) (nick : string) (input : list byte) :
  ∃ lines tail,
    input = concat lines ++ tail
    ∧ (newline ∉ tail)
    ∧ Forall (λ line, ∃ payload, line = payload ++ [newline] ∧ newline ∉ payload) lines
    ∧ readPump c nick input
      = ((λ line, Broadcast (format_message nick line)) <$> lines) ++ [Unregister c].
Proof.
  funelim (readPump c nick input).
  - destruct H as (lines & tail & Hin & Htail & Hlines & Hpump).
    destruct (ReadBytes_ok_inv _ _ _ _ e) as (payload & Hpayload & -> & Hinput).
    exists ((payload ++ [newline]) :: lines), tail.
    split; [|split; [done|split]].
    + cbn [concat]. rewrite Hinput, Hin, <- !app_assoc. done.
    + apply Forall_cons. split; [by exists payload | done].
    + cbn. by rewrite Hpump.
  - destruct (ReadBytes_error_inv _ _ _ e) as [Htail _].
    exists [], input. by repeat split.
Qed.

(** X9. The wire format does not tell who speaks.  For a given nickname the
    line is determined by the message, but a client whose nickname is
    [nick]: p, which the handshake accepts, sends for the line [line] the
    very message that the client [nick] sends for the line p]: [line]. *)
Theorem format_message_ambiguous (nick p : string) (line : list byte) :
  (newline ∉ bytes (nick +:+ "]: " +:+ p) →
   handshake_nickname (bytes (nick +:+ "]: " +:+ p) ++ [newline])
   = Some (nick +:+ "]: " +:+ p))
  ∧ format_message (nick +:+ "]: " +:+ p) line
    = format_message nick (bytes (p +:+ "]: ") ++ line)
  ∧ (∀ line', format_message nick line = format_message nick line' → line = line').
Proof.
  split; [|split].
  - intros Hnl. rewrite (handshake_nickname_line _ [] Hnl).
    unfold bytes. by rewrite String.string_of_list_byte_of_string.
  - rewrite !format_message_bytes. unfold bytes.
    by rewrite !list_byte_of_string_app, <- !app_assoc.
  - intros line'. rewrite !format_message_bytes. apply app_inv_head.
Qed.

Lemma format_message_ambiguous_witness :
  handshake_nickname (bytes ("Ann" +:+ "]: " +:+ "hi") ++ [newline])
  = Some ("Ann" +:+ "]: " +:+ "hi")
  ∧ format_message ("Ann" +:+ "]: " +:+ "hi") [newline]
    = format_message "Ann" (bytes ("hi" +:+ "]: ") ++ [newline]).
Proof.
  split.
  - apply (proj1 (format_message_ambiguous "Ann" "hi" [newline])).
    apply (bool_decide_unpack _). vm_compute. exact I.
  - apply (proj1 (proj2 (format_message_ambiguous "Ann" "hi" [newline]))).
Defined.

(** X10. [writePump] writes what its rounds give it, in order, up to and
    including the first round that ends it, a failed write or the closing
    notice for a closed queue, and nothing of what would follow. *)
Theorem writePump_stops (before after : list pump_input) (r : pump_input) :
  Forall (λ r', goes_on r' = true) before → goes_on r = false →
  writePump (before ++ r :: after) = (written <$> before) ++ [written r]
  ∧ writePump before = written <$> before.
Proof.
  intros Hbefore Hr. induction Hbefore as [|r' before Hr' _ [IH1 IH2]].
  - split; [|done]. destruct r as [m []| |[]]; done.
  - destruct r' as [m []| |[]]; try done; cbn; by rewrite IH1, IH2.
Qed.

Lemma writePump_stops_witness :
  writePump ([FromSend [x68; x69; newline] true; Tick true]
             ++ SendClosed :: [FromSend [newline] true])
  = (written <$> [FromSend [x68; x69; newline] true; Tick true]) ++ [written SendClosed]
  ∧ writePump [FromSend [x68; x69; newline] true; Tick true]
    = written <$> [FromSend [x68; x69; newline] true; Tick true].
Proof.
  apply writePump_stops.
  - apply (bool_decide_unpack _). vm_compute. exact I.
  - reflexivity.
Defined.

(** X11. The handshake is abandoned, with nothing allocated and nothing
    sent to the hub, exactly when the prompt cannot be written or the
    connection yields no newline before its read fails; otherwise the client
    is accepted. *)
Theorem handleConnection_abandons_iff (prompt_ok : bool) (input : list byte)
    (h : gmap ptr Client) :
  (handleConnection prompt_ok input h = Ok Abandoned
   ↔ prompt_ok = false ∨ newline ∉ input)
  ∧ ((∃ c h' evs, handleConnection prompt_ok input h = Ok (Accepted c h' evs))
     ↔ prompt_ok = true ∧ newline ∈ input).
Proof.
  destruct prompt_ok.
  - destruct (decide (newline ∈ input)) as [Hin|Hout].
    + apply list_elem_of_split_l in Hin as (name & rest & -> & Hname).
      rewrite (handleConnection_line name rest h Hname). split.
      * split; [done|]. intros [?|Hno]; [done|]. exfalso. apply Hno.
        apply elem_of_app. right. left.
      * split; [intros _|intros _; by do 3 eexists].
        split; [done|]. apply elem_of_app. right. left.
    + assert (handleConnection true input h = Ok Abandoned) as ->.
      { unfold handleConnection, ReadString. cbn [negb].
        by rewrite (ReadBytes_error _ _ Hout). }
      split; [split; [by right | done]|].
      split; [by intros (? & ? & ? & ?) | by intros [_ ?]].
  - cbn. split; [split; [by left | done]|].
    split; [by intros (? & ? & ? & ?) | by intros [? _]].
Qed.

(** X12. An accepted handshake allocates the client at an address that was
    free and leaves every other client object as it is; the new client has
    the first line, without its newline, as nickname and an empty open
    queue of capacity 256; and the hub is sent its registration followed by
    the join notice, [<nickname> has joined the chat.] and a newline. *)
Theorem handleConnection_accepted (prompt_ok : bool) (input : list byte)
    (h h' : gmap ptr Client) (c : ptr) (evs : list event) :
  handleConnection prompt_ok input h = Ok (Accepted c h' evs) →
  h !! c = None
  ∧ (∀ c', c' ≠ c → h' !! c' = h !! c')
  ∧ ∃ name rest,
      input = name ++ newline :: rest ∧ (newline ∉ name)
      ∧ h' !! c = Some {| nickname := String.string_of_list_byte name;
                          send := {| buf := []; cap := 256; closed := false |} |}
      ∧ evs = [Register c;
               Broadcast (name ++ bytes " has joined the chat." ++ [newline])].
Proof.
  destruct prompt_ok; [|done].
  destruct (decide (newline ∈ input)) as [Hin|Hout].
  - apply list_elem_of_split_l in Hin as (name & rest & -> & Hname).
    rewrite (handleConnection_line name rest h Hname). intros [= <- <- <-].
    split; [|split].
    + apply not_elem_of_dom, is_fresh.
    + intros c' Hne. by rewrite lookup_insert_ne.
    + exists name, rest. split; [done|]. split; [done|].
      split; [by rewrite lookup_insert_eq|].
      unfold joinMsg, bytes.
      by rewrite !list_byte_of_string_app, String.list_byte_of_string_of_list_byte.
  - unfold handleConnection, ReadString. cbn [negb].
    by rewrite (ReadBytes_error _ _ Hout).
Qed.

Lemma handleConnection_accepted_witness :
  let h : gmap ptr Client := {[ 1%positive := newClient "Ann" ]} in
  let h' : gmap ptr Client := {[ 1%positive := newClient "Ann"; 2%positive := newClient "Bo" ]} in
  let evs := [Register 2%positive; Broadcast (bytes ("Bo has joined the chat." +:+ LF))] in
  let input := bytes "Bo" ++ newline :: bytes "hello" in
  h !! 2%positive = None
  ∧ (∀ c', c' ≠ 2%positive → h' !! c' = h !! c')
  ∧ ∃ name rest,
      input = name ++ newline :: rest ∧ (newline ∉ name)
      ∧ h' !! 2%positive = Some {| nickname := String.string_of_list_byte name;
                                   send := {| buf := []; cap := 256; closed := false |} |}
      ∧ evs = [Register 2%positive;
               Broadcast (name ++ bytes " has joined the chat." ++ [newline])].
Proof.
  intros h h' evs input.
  apply (handleConnection_accepted true input h h' 2%positive evs).
  vm_compute. reflexivity.
Defined.



(** * The client's done channel *)

(** X14. However often the reading and the writing goroutine of the client
    call [closeDone], once each or more, [done] is closed by the first call
    and no later call closes it again: there is no panic. *)
Theorem closeDone_closes_once (n : nat) :
  closeDone_times (S n) new_closer
  = Ok {| once_done := true; done := {| buf := []; cap := 0; closed := true |} |}
  ∧ close (done new_closer) ≫= close = Panic CloseOfClosed.
Proof.
  split; [|reflexivity]. cbn.
  induction n as [|n IH]; [reflexivity|]. exact IH.
Qed.
